(** * async-jaeger: the leaky-bucket rate limiter and the reporter contracts

    A shallow embedding of [async_jaeger/rate_limiter.py] and of the
    reporter behaviour exercised by [tests/test_reporter.py].

    Numbers.  Python floats are modelled by the rationals [Q]: every
    statement below is about exact arithmetic, rounding is not modelled.
    The one Python-level error of the arithmetic used here, the
    [ZeroDivisionError] of [/], is kept.

    Effects.  A method of [RateLimiter] mutates the attributes of [self]
    and may raise; it is a function from the object before the call to an
    outcome (a value or an exception) and the object after the call.  The
    object after the call is kept also when the call raises, as in Python.
    The two impure reads of the class, [time.time()] and
    [random.random()], are arguments of the call that performs them. *)

From Stdlib Require Import QArith Qminmax Lqa Lia List Bool PeanoNat.
From Stdlib Require String.
Import ListNotations.

Local Open Scope Q_scope.

(** ** Python comparison and division on numbers *)

(** [a >= b] *)
Definition Qgeb (a b : Q) : bool := Qle_bool b a.

(** [a > b] *)
Definition Qgtb (a b : Q) : bool := negb (Qle_bool a b).

(** ** Exceptions and the method monad *)

Inductive exn : Set :=
| ZeroDivisionError.

(** The outcome of a call: an exception or the returned value. *)
Definition outcome (A : Type) : Type := (exn + A)%type.

Definition returned {A : Type} (o : outcome A) : bool :=
  match o with inr _ => true | inl _ => false end.

(** [x / y] on Python numbers. *)
Definition pydiv (x y : Q) : outcome Q :=
  if Qeq_bool y 0 then inl ZeroDivisionError else inr (x / y).

(** A method body over an object of type [S]: the outcome of the call and
    the object after it. *)
Definition Method (S A : Type) : Type := S -> outcome A * S.

Definition ret {S A : Type} (a : A) : Method S A := fun self => (inr a, self).

Definition bind {S A B : Type} (m : Method S A) (k : A -> Method S B)
  : Method S B :=
  fun self =>
    match m self with
    | (inr a, self') => k a self'
    | (inl e, self') => (inl e, self')
    end.

(** An expression that may raise and does not touch the object. *)
Definition lift {S A : Type} (o : outcome A) : Method S A :=
  fun self => (o, self).

(** [self.field] *)
Definition read {S A : Type} (field : S -> A) : Method S A :=
  fun self => (inr (field self), self).

(** [self.field = v], given the function that stores [v] in the field. *)
Definition write {S : Type} (store : S -> S) : Method S unit :=
  fun self => (inr tt, store self).

Declare Scope method_scope.
Delimit Scope method_scope with method.
Notation "x <- m ;; k" := (bind m (fun x => k))
  (at level 61, m at next level, right associativity) : method_scope.
Notation "m ;; k" := (bind m (fun _ => k))
  (at level 61, right associativity) : method_scope.

Module RateLimiter.

(** The attributes of a [RateLimiter] object. *)
Record t : Set := mk {
  credits_per_second : Q;
  max_balance : Q;
  balance : Q;
  last_tick : Q
}.

Definition M : Type -> Type := Method t.

Definition set_credits_per_second (v : Q) : M unit :=
  write (fun self => mk v (max_balance self) (balance self) (last_tick self)).

Definition set_max_balance (v : Q) : M unit :=
  write (fun self => mk (credits_per_second self) v (balance self) (last_tick self)).

Definition set_balance (v : Q) : M unit :=
  write (fun self => mk (credits_per_second self) (max_balance self) v (last_tick self)).

Definition set_last_tick (v : Q) : M unit :=
  write (fun self => mk (credits_per_second self) (max_balance self) (balance self) v).

Local Open Scope method_scope.

(** [__init__]: [u] is the value of [random.random()], [now] the value of
    [self.timestamp()]. *)
Definition __init__ (credits_per_second max_balance : Q) (u now : Q) : t :=
  mk credits_per_second max_balance (max_balance * u) now.

(** [_update_balance]: [now] is the value of [self.timestamp()]. *)
Definition _update_balance (now : Q) : M unit :=
  let current_time := now in
  tick <- read last_tick ;;
  let elapsed_time := current_time - tick in
  set_last_tick current_time ;;
  b <- read balance ;;
  r <- read credits_per_second ;;
  set_balance (b + elapsed_time * r) ;;
  b <- read balance ;;
  m <- read max_balance ;;
  if Qgtb b m then set_balance m else ret tt.

Definition update (credits_per_second max_balance : Q) (now : Q) : M unit :=
  _update_balance now ;;
  set_credits_per_second credits_per_second ;;
  b <- read balance ;;
  m <- read RateLimiter.max_balance ;;
  q <- lift (pydiv (max_balance * b) m) ;;
  set_balance q ;;
  set_max_balance max_balance.

Definition check_credit (item_cost : Q) (now : Q) : M bool :=
  _update_balance now ;;
  b <- read balance ;;
  if Qgeb b item_cost
  then set_balance (b - item_cost) ;; ret true
  else ret false.

(** ** Sequences of calls on one limiter *)

Inductive call : Set :=
| CheckCredit (item_cost : Q) (now : Q)
| Update (credits_per_second max_balance : Q) (now : Q).


(** The value a call returns: [check_credit] a bool, [update] [None]. *)
Inductive value : Set :=
| VBool (b : bool)
| VNone.

Definition perform (c : call) : M value :=
  match c with
  | CheckCredit item_cost now =>
      g <- check_credit item_cost now ;; ret (VBool g)
  | Update r m now =>
      update r m now ;; ret VNone
  end.

(** The outcome of every call of the sequence and the object after it.  A
    caller may catch an exception and go on, so the sequence does not stop
    at a call that raises. *)
Fixpoint observe (self : t) (cs : list call) : list (outcome value * t) :=
  match cs with
  | [] => []
  | c :: cs' =>
      let r := perform c self in
      r :: observe (snd r) cs'
  end.

(** The objects seen at the observation points: after construction and
    after each call. *)
Definition observations (self : t) (cs : list call) : list t :=
  self :: map snd (observe self cs).

(** [0 <= balance <= max_balance] *)
Definition within_bounds (self : t) : Prop :=
  0 <= balance self /\ balance self <= max_balance self.

(** The balance [_update_balance] leaves. *)
Definition replenished (self : t) (now : Q) : Q :=
  Qmin (balance self + (now - last_tick self) * credits_per_second self)
       (max_balance self).

(** The configuration surface: a positive rate and a positive maximum in
    every [update]. *)
Definition configured (c : call) : Prop :=
  match c with
  | Update r m _ => 0 < r /\ 0 < m
  | CheckCredit _ _ => True
  end.




(** Two objects with equal attributes, as numbers. *)
Definition equiv (s1 s2 : t) : Prop :=
  credits_per_second s1 == credits_per_second s2 /\
  max_balance s1 == max_balance s2 /\
  balance s1 == balance s2 /\
  last_tick s1 == last_tick s2.

End RateLimiter.

(** * The reporters

    [async_jaeger/reporter.py] is not among the sources; only its tests
    are.  The two modules below follow the specification of the batching
    reporter and of the composite reporter. *)

Module Reporter.

Section Spans.

(** A span is opaque to the reporter. *)
Context {span : Type}.

Inductive state : Set :=
| Open
| Closing
| Closed.

(** The counters of the metrics factory, [reporter_spans.result_dropped]
    and the like. *)
Inductive counter : Set :=
| result_dropped
| result_ok
| result_err.

Definition counter_eqb (a b : counter) : bool :=
  match a, b with
  | result_dropped, result_dropped => true
  | result_ok, result_ok => true
  | result_err, result_err => true
  | _, _ => false
  end.

(** The bounded FIFO queue: its capacity, the spans waiting in it and the
    count of spans submitted and not yet fully processed. *)
Record queue : Type := mkQueue {
  capacity : nat;
  items : list span;
  unfinished : nat
}.

(** Modelled from the spec: [try_enqueue] of the bounded span queue, which
    is not among the sources.  It never waits: at capacity it answers
    [false] and leaves the queue as it is. *)
Definition try_enqueue (x : span) (q : queue) : bool * queue :=
  if Nat.ltb (length (items q)) (capacity q)
  then (true, mkQueue (capacity q) (items q ++ [x]) (S (unfinished q)))
  else (false, q).

(** The batching reporter: its state, the flush threshold, the queue, the
    batch being accumulated, the batch handed to the sender and not yet
    answered, every batch handed to the sender so far, and every increment
    emitted to the metrics sink so far, oldest first. *)
Record t : Type := mk {
  status : state;
  batch_size : nat;
  spans : queue;
  pending : list span;
  in_flight : option (list span);
  requests : list (list span);
  emitted : list counter
}.

Definition set_spans (q : queue) (self : t) : t :=
  mk (status self) (batch_size self) q (pending self) (in_flight self)
     (requests self) (emitted self).

Definition set_status (st : state) (self : t) : t :=
  mk st (batch_size self) (spans self) (pending self) (in_flight self)
     (requests self) (emitted self).

(** One increment of a counter. *)
Definition emit (c : counter) (self : t) : t :=
  mk (status self) (batch_size self) (spans self) (pending self)
     (in_flight self) (requests self) (emitted self ++ [c]).

(** How many increments of a counter were emitted. *)
Definition count (c : counter) (self : t) : nat :=
  length (filter (counter_eqb c) (emitted self)).

Local Open Scope method_scope.

(** Modelled from the spec: [report_span] of the batching reporter, which
    is not among the sources.  Closed, and also while closing, it emits the
    dropped counter and returns; otherwise it tries to enqueue and emits
    the dropped counter when the queue is full.  It calls no operation
    that waits and raises nothing. *)
Definition report_span (x : span) : Method t unit :=
  st <- read status ;;
  match st with
  | Closed | Closing => write (emit result_dropped)
  | Open =>
      q <- read spans ;;
      let (accepted, q') := try_enqueue x q in
      if accepted then write (set_spans q')
      else write (emit result_dropped)
  end.

(** Modelled from the spec: the send path of the consumer, which is not
    among the sources.  An empty batch is skipped; otherwise the pending
    batch goes to the sender and the buffer is cleared. *)
Definition send_pending (self : t) : t :=
  match pending self with
  | [] => self
  | batch =>
      mk (status self) (batch_size self) (spans self) []
         (Some batch) (requests self ++ [batch]) (emitted self)
  end.

(** What happens to a reporter besides [report_span]. *)
Inductive event : Set :=
| Dequeue               (* the consumer asks the queue for the next span *)
| Timer                 (* the flush timer fires *)
| SendDone (ok : bool)  (* the sender answers the batch in flight *)
| CloseRequested.       (* [close()] is called *)

(** Modelled from the spec: the consumer loop, the flush timer, the
    answer of the sender and [close], which are not among the sources.
    One send at most is in flight; while it is, the consumer dequeues
    nothing.  While closing, once the queue is empty the pending batch goes
    out as a last send, and when nothing is left the reporter is closed. *)
Definition react (e : event) (self : t) : t :=
  match e with
  | Dequeue =>
      match in_flight self with
      | Some _ => self
      | None =>
          match items (spans self) with
          | x :: rest =>
              let q := mkQueue (capacity (spans self)) rest
                               (unfinished (spans self)) in
              let self' :=
                mk (status self) (batch_size self) q (pending self ++ [x])
                   None (requests self) (emitted self) in
              if Nat.leb (batch_size self) (length (pending self'))
              then send_pending self' else self'
          | [] =>
              match status self, pending self with
              | Closing, [] => set_status Closed self
              | Closing, _ => send_pending self
              | _, _ => self
              end
          end
      end
  | Timer =>
      match in_flight self with
      | Some _ => self
      | None => send_pending self
      end
  | SendDone ok =>
      match in_flight self with
      | None => self
      | Some batch =>
          let q := mkQueue (capacity (spans self)) (items (spans self))
                           (unfinished (spans self) - length batch) in
          mk (status self) (batch_size self) q (pending self) None
             (requests self)
             (emitted self ++ [if ok then result_ok else result_err])
      end
  | CloseRequested =>
      match status self with
      | Open => set_status Closing self
      | _ => self
      end
  end.

Definition run (evs : list event) (self : t) : t :=
  fold_left (fun s e => react e s) evs self.

(** The spans handed to the sender so far, in order. *)
Definition delivered (self : t) : list span := concat (requests self).

(** The queue is at capacity. *)
Definition full (q : queue) : Prop := (capacity q <= length (items q))%nat.

(** Two reporters that differ at most in the increments emitted. *)
Definition same_spans (a b : t) : Prop :=
  status a = status b /\ batch_size a = batch_size b /\
  spans a = spans b /\ pending a = pending b /\
  in_flight a = in_flight b /\ requests a = requests b.

End Spans.

Arguments queue : clear implicits.
Arguments t : clear implicits.

End Reporter.

Module CompositeReporter.

Section Children.

(** The spans, the tag mappings and the child reporters are opaque to the
    composite.  A child is known by its identity only; what it does with a
    call is its own business, what the composite does is to call it. *)
Context {span tags child : Type}.

(** The operations of the reporter capability. *)
Inductive operation : Type :=
| SetProcess (service_name : String.string) (process_tags : tags)
             (max_length : Z)
| ReportSpan (x : span)
| Close.

(** The calls the children have received, oldest first. *)
Definition calls : Type := list (child * operation).

(** The composite holds its children in order. *)
Record t : Type := mk { reporters : list child }.

Local Open Scope method_scope.

(** One synchronous call of an operation on a child. *)
Definition invoke (op : operation) (c : child) : Method calls unit :=
  write (fun log => log ++ [(c, op)]).

(** [for reporter in self.reporters: reporter.op(...)] *)
Fixpoint for_each (op : operation) (cs : list child) : Method calls unit :=
  match cs with
  | [] => ret tt
  | c :: cs' => invoke op c ;; for_each op cs'
  end.

(** Modelled from the spec: [set_process] of the composite reporter, which
    is not among the sources: the same call on every child, in order. *)
Definition set_process (self : t) (service_name : String.string)
    (process_tags : tags) (max_length : Z) : Method calls unit :=
  for_each (SetProcess service_name process_tags max_length) (reporters self).

(** Modelled from the spec: [report_span] of the composite reporter, which
    is not among the sources: the same call on every child, in order. *)
Definition report_span (self : t) (x : span) : Method calls unit :=
  for_each (ReportSpan x) (reporters self).

(** How a completion ended. *)
Inductive settlement : Set :=
| Resolved
| Failed.

(** A completion: pending, or settled. *)
Definition completion : Set := option settlement.

Definition settled (c : completion) : bool :=
  match c with Some _ => true | None => false end.

Definition failed (c : completion) : bool :=
  match c with Some Failed => true | _ => false end.

(** The completion [close()] of the composite returns: the completions of
    the children it waits for, in the order of the children. *)
Record join : Set := mkJoin { awaited : list completion }.

(** Modelled from the spec: [close] of the composite reporter, which is not
    among the sources: [close()] on every child, and one completion that
    waits for the completions of all of them. *)
Definition close (self : t) : Method calls join :=
  for_each Close (reporters self) ;;
  ret (mkJoin (map (fun _ => None) (reporters self))).

Fixpoint settle_nth (i : nat) (r : settlement) (cs : list completion)
  {struct cs} : list completion :=
  match cs, i with
  | [], _ => []
  | None :: cs', O => Some r :: cs'
  | Some r0 :: cs', O => Some r0 :: cs'
  | c :: cs', S i' => c :: settle_nth i' r cs'
  end.

(** The close completion of child [i] settles; a completion settles once. *)
Definition settle (ev : nat * settlement) (j : join) : join :=
  mkJoin (settle_nth (fst ev) (snd ev) (awaited j)).

Definition settle_all (evs : list (nat * settlement)) (j : join) : join :=
  fold_left (fun j ev => settle ev j) evs j.

(** Modelled from the spec: the state of the completion the composite
    returned: pending as long as a child completion is pending; once all
    are settled it is settled, as failed when a child failed. *)
Definition state (j : join) : completion :=
  if forallb settled (awaited j)
  then Some (if existsb failed (awaited j) then Failed else Resolved)
  else None.

(** Child [i] has settled among the events. *)
Definition settles (i : nat) (evs : list (nat * settlement)) : Prop :=
  exists r, In (i, r) evs.

End Children.

Arguments operation : clear implicits.
Arguments calls : clear implicits.
Arguments t : clear implicits.

End CompositeReporter.

(** * Using a limiter: what a sequence of calls grants *)

Module Usage.

Import RateLimiter.


(** The cost a call was granted: the [item_cost] of a [check_credit] that
    returned [True], nothing otherwise. *)
Definition granted_cost (c : call) (o : outcome value) : Q :=
  match c, o with
  | CheckCredit item_cost _, inr (VBool true) => item_cost
  | _, _ => 0
  end.

(** The sum of the costs granted along a sequence of calls. *)
Fixpoint granted_total (self : t) (cs : list call) : Q :=
  match cs with
  | [] => 0
  | c :: cs' =>
      let r := perform c self in
      granted_cost c (fst r) + granted_total (snd r) cs'
  end.


(** What a call on a limiter of maximum 0 does: [check_credit] returns,
    [update] raises [ZeroDivisionError]. *)
Definition stuck_outcome (c : call) (o : outcome value * t) : Prop :=
  match c with
  | CheckCredit _ _ => returned (fst o) = true
  | Update _ _ _ => fst o = inl ZeroDivisionError
  end.

End Usage.

(** * The helpers of [tests/test_reporter.py] *)

Module TestReporter.

(** ** [FakeMetricsFactory] *)

(** The [counters] dict: keys in insertion order, one entry per key. *)
Definition counters : Set := list (String.string * Z).

(** [d.get(key, default)] *)
Fixpoint get (d : counters) (key : String.string) (default : Z) : Z :=
  match d with
  | [] => default
  | (k, v) :: d' => if String.eqb k key then v else get d' key default
  end.

(** [key in d] *)
Fixpoint contains (d : counters) (key : String.string) : bool :=
  match d with
  | [] => false
  | (k, _) :: d' => String.eqb k key || contains d' key
  end.

(** [d[key] = value]: the entry of an existing key is replaced in place, a
    new key goes to the end. *)
Fixpoint setitem (d : counters) (key : String.string) (value : Z) : counters :=
  match d with
  | [] => [(key, value)]
  | (k, v) :: d' =>
      if String.eqb k key then (k, value) :: d'
      else (k, v) :: setitem d' key value
  end.

(** [_incr_count]: [self.counters[key] = value + self.counters.get(key, 0)] *)
Definition _incr_count (key : String.string) (value : Z) : Method counters unit :=
  fun self => (inr tt, setitem self key (value + get self key 0)%Z).

(** A sequence of [_incr_count] calls. *)
Fixpoint incr_all (calls : list (String.string * Z)) (self : counters) : counters :=
  match calls with
  | [] => self
  | (key, value) :: calls' => incr_all calls' (snd (_incr_count key value self))
  end.

(** The sum of the values counted under a key in a sequence of calls. *)
Fixpoint counted (calls : list (String.string * Z)) (key : String.string) : Z :=
  match calls with
  | [] => 0%Z
  | (k, v) :: calls' =>
      ((if String.eqb k key then v else 0) + counted calls' key)%Z
  end.

(** ** [ReporterTest._wait_for] *)

(** How a wait ended: with the condition seen true, or after the last
    round with the message printed. *)
Inductive waited : Set :=
| Met
| GaveUp.

(** The loop [for i in range(n): if fn(): return; yield sleep(0.001)]
    from round [i] on, with [n] rounds left.  [fn i] is what [fn()] answers
    in round [i].  The result is how the wait ended and how many times it
    slept. *)
Fixpoint wait_loop (fn : nat -> bool) (i n : nat) : waited * nat :=
  match n with
  | O => (GaveUp, O)
  | S n' =>
      if fn i then (Met, O)
      else let (w, sleeps) := wait_loop fn (S i) n' in (w, S sleeps)
  end.

(** [_wait_for(fn)]: at most 1000 rounds. *)
Definition _wait_for (fn : nat -> bool) : waited * nat :=
  wait_loop fn 0 1000.

(** ** [FakeSender] *)

Section Sender.

Context {span : Type}.

(** A [Future] of the test: pending, or done with a result. *)
Definition future : Set := option Z.

(** The futures allocated so far; a reference to a future is its position. *)
Definition heap : Set := list future.

(** The attributes of a [FakeSender]: the captured requests and the
    references of the futures handed out, and the heap they live in. *)
Record sender : Type := mkSender {
  requests : list (list span);
  futures : list nat;
  store : heap
}.

(** [FakeSender()] in a world that holds the futures [h]. *)
Definition new_sender (h : heap) : sender := mkSender [] [] h.

(** [__call__]: captures the request, makes a pending future, keeps it and
    returns it. *)
Definition __call__ (spans : list span) : Method sender nat :=
  fun self =>
    let fut := length (store self) in
    (inr fut,
     mkSender (requests self ++ [spans]) (futures self ++ [fut])
              (store self ++ [None])).

(** The sender after a sequence of calls, with the references returned. *)
Fixpoint send_all (batches : list (list span)) (self : sender)
  : list nat * sender :=
  match batches with
  | [] => ([], self)
  | b :: batches' =>
      let r := __call__ b self in
      let (refs, self') := send_all batches' (snd r) in
      (match fst r with inr ref => ref :: refs | inl _ => refs end, self')
  end.

End Sender.

Arguments sender : clear implicits.

End TestReporter.

(** * Properties *)

(** ** Comparisons *)

Lemma Qgeb_true a b : Qgeb a b = true <-> b <= a.
Proof. unfold Qgeb. apply Qle_bool_iff. Qed.

Lemma Qgeb_false a b : Qgeb a b = false <-> a < b.
Proof.
  unfold Qgeb. split; intros H.
  - apply Qnot_le_lt. intros L. apply Qle_bool_iff in L. congruence.
  - destruct (Qle_bool b a) eqn:E; [|reflexivity].
    apply Qle_bool_iff in E. lra.
Qed.

Lemma Qgtb_true a b : Qgtb a b = true <-> b < a.
Proof. unfold Qgtb. rewrite negb_true_iff. apply Qgeb_false. Qed.

Lemma Qgtb_false a b : Qgtb a b = false <-> a <= b.
Proof. unfold Qgtb. rewrite negb_false_iff. apply Qle_bool_iff. Qed.

(** The clamp [if x > m: x = m] is the minimum of [x] and [m], as the same
    term and not only up to [==]. *)
Lemma clamp_is_Qmin x m : (if Qgtb x m then m else x) = Qmin x m.
Proof.
  unfold Qgtb, Qle_bool, Qmin, GenericMinMax.gmin, Qcompare, Z.leb.
  destruct (Qnum x * QDen m ?= Qnum m * QDen x)%Z; reflexivity.
Qed.

Lemma pydiv_nonzero x y : ~ y == 0 -> pydiv x y = inr (x / y).
Proof.
  intros H. unfold pydiv. destruct (Qeq_bool y 0) eqn:E; [|reflexivity].
  apply Qeq_bool_iff in E. contradiction.
Qed.

Lemma pydiv_zero x y : y == 0 -> pydiv x y = inl ZeroDivisionError.
Proof.
  intros H. unfold pydiv. apply Qeq_bool_iff in H. rewrite H. reflexivity.
Qed.

(** ** RateLimiter: what one call does *)

Section OneCall.

Import RateLimiter.

Variable self : t.
Variable now : Q.

Lemma _update_balance_run :
  _update_balance now self =
  (inr tt, mk (credits_per_second self) (max_balance self)
              (replenished self now) now).
Proof.
  unfold _update_balance, replenished, bind, read, set_last_tick, set_balance,
    write, ret; cbn.
  rewrite <- clamp_is_Qmin.
  destruct (Qgtb _ _); reflexivity.
Qed.

Lemma check_credit_run item_cost :
  check_credit item_cost now self =
  if Qgeb (replenished self now) item_cost
  then (inr true, mk (credits_per_second self) (max_balance self)
                     (replenished self now - item_cost) now)
  else (inr false, mk (credits_per_second self) (max_balance self)
                      (replenished self now) now).
Proof.
  unfold check_credit, bind. rewrite _update_balance_run.
  unfold read, set_balance, write, ret; cbn.
  destruct (Qgeb _ _); reflexivity.
Qed.

Lemma update_run r m :
  update r m now self =
  match pydiv (m * replenished self now) (max_balance self) with
  | inr q => (inr tt, mk r m q now)
  | inl e => (inl e, mk r (max_balance self) (replenished self now) now)
  end.
Proof.
  unfold update, bind. rewrite _update_balance_run.
  unfold read, set_credits_per_second, set_balance, set_max_balance, write,
    lift, ret; cbn.
  destruct (pydiv _ _); reflexivity.
Qed.

End OneCall.

(** ** RateLimiter: the claims about single calls *)

Section SingleCalls.

Import RateLimiter.

(** C1.  For every limiter with last tick [t0], balance [b], rate [r] and
    maximum [m], [check_credit(c)] at time [t] first replenishes: the
    balance becomes [min (b + (t - t0) * r) m] and [last_tick] becomes [t].
    Then, when that balance is at least [c], the call returns [True] with
    the balance lowered by [c]; otherwise it returns [False] and the
    replenished balance stays.  So the call grants exactly when
    [c <= min (b + r * (t - t0)) m].  The rate and the maximum are not
    touched and the call never raises. *)
Theorem check_credit_spec (self : t) (c now : Q) :
  let r := credits_per_second self in
  let m := max_balance self in
  let b' := Qmin (balance self + (now - last_tick self) * r) m in
  _update_balance now self = (inr tt, mk r m b' now) /\
  ((c <= b' /\ check_credit c now self = (inr true, mk r m (b' - c) now)) \/
   (b' < c /\ check_credit c now self = (inr false, mk r m b' now))) /\
  (fst (check_credit c now self) = inr true
   <-> c <= Qmin (balance self + r * (now - last_tick self)) m).
Proof.
  cbv zeta.
  rewrite _update_balance_run, check_credit_run. unfold replenished.
  set (b' := Qmin _ _).
  assert (E : Qmin (balance self + credits_per_second self * (now - last_tick self))
                   (max_balance self) == b').
  { unfold b'. apply Q.min_compat; [ring | reflexivity]. }
  split; [reflexivity|].
  destruct (Qgeb b' c) eqn:G.
  - apply Qgeb_true in G. split; [left; split; [exact G | reflexivity]|].
    cbn. split; [intros _; rewrite E; exact G | reflexivity].
  - apply Qgeb_false in G. split; [right; split; [exact G | reflexivity]|].
    cbn. split; [discriminate | intros L; rewrite E in L; lra].
Qed.

(** C6.  [_update_balance] adds [(now - last_tick) * credits_per_second]
    whatever the sign of the elapsed time and clamps the sum from above
    only.  So there is a limiter built with a positive rate and a positive
    maximum whose balance is within bounds after a first [check_credit],
    and a second [check_credit] at an earlier clock reading than the first
    that leaves a negative balance. *)
Theorem backward_clock_negative_balance :
  (forall (self : t) (now : Q),
     let b := balance self + (now - last_tick self) * credits_per_second self in
     balance (snd (_update_balance now self))
     = (if Qgtb b (max_balance self) then max_balance self else b)) /\
  (exists (r m u t0 t1 t2 c1 c2 : Q),
     0 < r /\ 0 < m /\ 0 <= u /\ u < 1 /\ t0 <= t1 /\ t2 < t1 /\
     let s0 := __init__ r m u t0 in
     let s1 := snd (check_credit c1 t1 s0) in
     let s2 := snd (check_credit c2 t2 s1) in
     within_bounds s0 /\ within_bounds s1 /\ balance s2 < 0).
Proof.
  split.
  - intros self now. cbv zeta. rewrite _update_balance_run; cbn.
    unfold replenished. symmetry. apply clamp_is_Qmin.
  - exists 1, 1, 0, 10, 10, 5, 0, 1. cbv zeta. unfold within_bounds.
    repeat split; try reflexivity; discriminate.
Qed.

(** C7.  The constructor stores the given rate and maximum, the current
    time as [last_tick], and [max_balance * u] as the balance, [u] being the
    value of [random.random()], which lies in [[0, 1)]; so for a positive
    maximum the first balance lies in [[0, max_balance)]. *)
Theorem init_spec (r m u now : Q) :
  0 <= u -> u < 1 -> 0 < m ->
  let self := __init__ r m u now in
  credits_per_second self = r /\
  max_balance self = m /\
  last_tick self = now /\
  balance self = m * u /\
  0 <= balance self /\ balance self < m.
Proof.
  intros Hu0 Hu1 Hm. cbn. repeat split; try reflexivity; nra.
Qed.

Lemma init_spec_witness :
  let self := __init__ 2 10 (1 # 4) 100 in
  credits_per_second self = 2 /\
  max_balance self = 10 /\
  last_tick self = 100 /\
  balance self = 10 * (1 # 4) /\
  0 <= balance self /\ balance self < 10.
Proof.
  apply (init_spec 2 10 (1 # 4) 100); [discriminate | reflexivity | reflexivity].
Defined.

(** C9.  [check_credit] accepts a negative [item_cost]: when the
    replenished balance [b] is at least [item_cost] and [item_cost < 0], the
    call returns [True] and leaves the balance [b - item_cost], which is
    above [b]; nothing clamps it afterwards, so for some negative cost the
    balance ends strictly above [max_balance]. *)
Theorem negative_cost_raises_balance (self : t) (item_cost now : Q) :
  item_cost < 0 ->
  item_cost <= replenished self now ->
  (let r := check_credit item_cost now self in
   fst r = inr true /\
   balance (snd r) = replenished self now - item_cost /\
   replenished self now < balance (snd r) /\
   max_balance (snd r) = max_balance self) /\
  (exists (s0 : t) (c t1 : Q),
     c < 0 /\ within_bounds s0 /\
     max_balance (snd (check_credit c t1 s0))
     < balance (snd (check_credit c t1 s0))).
Proof.
  intros Hneg Hge. split.
  - cbv zeta. rewrite check_credit_run.
    apply Qgeb_true in Hge. rewrite Hge. cbn.
    repeat split; try reflexivity. lra.
  - exists (__init__ 1 1 (1 # 2) 0), (-1), 0.
    repeat split; try reflexivity; discriminate.
Qed.

Lemma negative_cost_raises_balance_witness :
  (let r := check_credit (-1) 0 (__init__ 1 1 (1 # 2) 0) in
   fst r = inr true /\
   balance (snd r) = replenished (__init__ 1 1 (1 # 2) 0) 0 - -1 /\
   replenished (__init__ 1 1 (1 # 2) 0) 0 < balance (snd r) /\
   max_balance (snd r) = max_balance (__init__ 1 1 (1 # 2) 0)) /\
  (exists (s0 : t) (c t1 : Q),
     c < 0 /\ within_bounds s0 /\
     max_balance (snd (check_credit c t1 s0))
     < balance (snd (check_credit c t1 s0))).
Proof.
  apply (negative_cost_raises_balance (__init__ 1 1 (1 # 2) 0) (-1) 0).
  - reflexivity.
  - discriminate.
Defined.

End SingleCalls.

(** ** RateLimiter: bounds of the replenished balance *)

Section Replenished.

Import RateLimiter.

Lemma replenished_le_max self now : replenished self now <= max_balance self.
Proof. unfold replenished. apply Q.le_min_r. Qed.


(** With no time elapsed and a balance within the maximum, replenishing
    changes nothing. *)
Lemma replenished_same self now :
  now == last_tick self -> balance self <= max_balance self ->
  replenished self now == balance self.
Proof.
  intros Ht Hb. unfold replenished. rewrite Q.min_l; [rewrite Ht; ring|].
  rewrite Ht. ring_simplify. exact Hb.
Qed.


End Replenished.

(** ** RateLimiter: [update] *)

Section Update.

Import RateLimiter.

(** [update] on a limiter whose maximum is not zero. *)
Lemma update_returns self r m now :
  ~ max_balance self == 0 ->
  update r m now self =
  (inr tt, mk r m (m * replenished self now / max_balance self) now).
Proof.
  intros Hm. rewrite update_run, pydiv_nonzero by exact Hm. reflexivity.
Qed.

(** C3, as stated, fails on a limiter whose balance is above its maximum,
    which a [check_credit] with a negative cost produces: built with rate 1,
    maximum 1 and [random()] = 1/2 at time 0, then [check_credit(-1)] at
    time 0, the limiter holds balance 3/2; [update(1, 2)] at time 0 clamps
    it to 1 before rescaling and leaves 2, not 2 * (3/2) / 1 = 3. *)
Lemma update_fill_fraction_counterexample :
  let s0 := snd (check_credit (-1) 0 (__init__ 1 1 (1 # 2) 0)) in
  let s1 := snd (update 1 2 0 s0) in
  last_tick s0 = 0 /\
  balance s0 == 3 # 2 /\
  max_balance s0 == 1 /\
  balance s1 == 2 /\
  ~ balance s1 == 2 * balance s0 / max_balance s0.
Proof.
  cbv zeta. repeat split; discriminate.
Qed.

(** C3, amended.  On a limiter whose maximum [m1] is not zero,
    [update(r2, m2)] replenishes the balance exactly as [check_credit]
    does, to the balance [b] on which [check_credit] decides, and then leaves the rate [r2], the maximum [m2] and the
    balance [m2 * b / m1] together.  When no time has elapsed since the
    last tick and the balance before the call is at most [m1], the balance
    after the call is [m2 * balance_before / m1]. *)
Theorem update_spec (self : t) (r2 m2 now : Q) :
  ~ max_balance self == 0 ->
  let m1 := max_balance self in
  let b := replenished self now in
  _update_balance now self = (inr tt, mk (credits_per_second self) m1 b now) /\
  (forall c, fst (check_credit c now self) = inr (Qgeb b c)) /\
  update r2 m2 now self = (inr tt, mk r2 m2 (m2 * b / m1) now) /\
  (now == last_tick self -> balance self <= m1 ->
   balance (snd (update r2 m2 now self)) == m2 * balance self / m1).
Proof.
  intros Hm. cbv zeta. rewrite _update_balance_run, update_returns by exact Hm.
  split; [reflexivity|]. split; [|split; [reflexivity|]].
  - intros c. rewrite check_credit_run. destruct (Qgeb _ _); reflexivity.
  - intros Ht Hb. cbn. rewrite (replenished_same self now Ht Hb). reflexivity.
Qed.

Lemma update_spec_witness :
  let self := mk 1 4 1 0 in
  let m1 := max_balance self in
  let b := replenished self 0 in
  _update_balance 0 self = (inr tt, mk (credits_per_second self) m1 b 0) /\
  (forall c, fst (check_credit c 0 self) = inr (Qgeb b c)) /\
  update 3 8 0 self = (inr tt, mk 3 8 (8 * b / m1) 0) /\
  (0 == last_tick self -> balance self <= m1 ->
   balance (snd (update 3 8 0 self)) == 8 * balance self / m1).
Proof.
  apply (update_spec (mk 1 4 1 0) 3 8 0). discriminate.
Defined.

(** C10, as stated, fails on the same limiter: maximum 1, balance 3/2 and
    a clock that stays at 0.  [update(5, 2)] followed by [update(1, 1)]
    leaves the balance 1, not 3/2. *)
Lemma update_round_trip_counterexample :
  let s0 := snd (check_credit (-1) 0 (__init__ 1 1 (1 # 2) 0)) in
  let s2 := snd (update 1 1 0 (snd (update 5 2 0 s0))) in
  credits_per_second s0 == 1 /\
  max_balance s0 == 1 /\
  last_tick s0 == 0 /\
  balance s0 == 3 # 2 /\
  balance s2 == 1 /\
  ~ balance s2 == balance s0.
Proof.
  cbv zeta. repeat split; discriminate.
Qed.

(** C10, amended.  For a limiter of maximum [m1 > 0] and rate [r1], a
    maximum [m2 > 0] and two calls at the same clock reading,
    [update(r2, m2)] followed by [update(r1, m1)] returns the rate and the
    maximum to [r1] and [m1] and the balance to the balance as replenished
    by the first call; that is the balance before the first call when it
    was at most [m1] and no time had elapsed since the last tick.  And
    [update(r, m)] called twice at the same clock reading leaves the same
    object as called once. *)
Theorem update_round_trip_idempotent (self : t) (r2 m2 now : Q) :
  0 < max_balance self -> 0 < m2 ->
  let r1 := credits_per_second self in
  let m1 := max_balance self in
  let once := update r2 m2 now self in
  let back := update r1 m1 now (snd once) in
  let twice := update r2 m2 now (snd once) in
  fst once = inr tt /\ fst back = inr tt /\ fst twice = inr tt /\
  credits_per_second (snd back) = r1 /\
  max_balance (snd back) = m1 /\
  balance (snd back) == replenished self now /\
  (now == last_tick self -> balance self <= m1 ->
   balance (snd back) == balance self) /\
  equiv (snd twice) (snd once).
Proof.
  intros H1 H2. cbv zeta.
  assert (N1 : ~ max_balance self == 0) by lra.
  assert (N2 : ~ m2 == 0) by lra.
  rewrite (update_returns self r2 m2 now N1). cbn [fst snd].
  set (b := replenished self now).
  set (s1 := mk r2 m2 (m2 * b / max_balance self) now).
  assert (Hb : b <= max_balance self) by apply replenished_le_max.
  assert (Hq : m2 * b / max_balance self <= m2).
  { apply Qle_shift_div_r; [exact H1 | nra]. }
  assert (R : replenished s1 now == m2 * b / max_balance self).
  { apply replenished_same; [reflexivity | exact Hq]. }
  rewrite !(update_returns s1) by exact N2. cbn [fst snd].
  cbn [credits_per_second max_balance balance last_tick].
  assert (B : max_balance self * replenished s1 now / m2 == b).
  { rewrite R. field. split; assumption. }
  do 5 (split; [reflexivity|]).
  split; [exact B|]. split.
  - intros Ht Hle. apply (Qeq_trans _ b); [exact B|].
    apply replenished_same; assumption.
  - unfold equiv; cbn [credits_per_second max_balance balance last_tick].
    do 2 (split; [reflexivity|]). split; [|reflexivity].
    rewrite R. subst s1. cbn [max_balance balance]. field.
    split; assumption.
Qed.

Lemma update_round_trip_idempotent_witness :
  let self := mk 1 4 1 0 in
  let r1 := credits_per_second self in
  let m1 := max_balance self in
  let once := update 3 8 0 self in
  let back := update r1 m1 0 (snd once) in
  let twice := update 3 8 0 (snd once) in
  fst once = inr tt /\ fst back = inr tt /\ fst twice = inr tt /\
  credits_per_second (snd back) = r1 /\
  max_balance (snd back) = m1 /\
  balance (snd back) == replenished self 0 /\
  (0 == last_tick self -> balance self <= m1 ->
   balance (snd back) == balance self) /\
  equiv (snd twice) (snd once).
Proof.
  apply (update_round_trip_idempotent (mk 1 4 1 0) 3 8 0); reflexivity.
Defined.

End Update.

(** ** RateLimiter: sequences of calls *)

Section Sequences.

Import RateLimiter.

Lemma perform_check_credit self c now :
  perform (CheckCredit c now) self =
  (inr (VBool (Qgeb (replenished self now) c)),
   mk (credits_per_second self) (max_balance self)
      (if Qgeb (replenished self now) c
       then replenished self now - c else replenished self now) now).
Proof.
  unfold perform, bind. rewrite check_credit_run.
  destruct (Qgeb _ _); reflexivity.
Qed.

Lemma perform_update self r m now :
  ~ max_balance self == 0 ->
  perform (Update r m now) self =
  (inr VNone, mk r m (m * replenished self now / max_balance self) now).
Proof.
  intros Hm. unfold perform, bind. rewrite update_returns by exact Hm.
  reflexivity.
Qed.

(** A positive maximum stays positive and no call raises. *)
Lemma perform_configured self c :
  0 < max_balance self -> configured c ->
  returned (fst (perform c self)) = true /\
  0 < max_balance (snd (perform c self)).
Proof.
  intros Hm Hc. destruct c as [cost now | r m now].
  - rewrite perform_check_credit. split; [reflexivity | exact Hm].
  - rewrite perform_update by lra. destruct Hc as [_ Hm']. split; [reflexivity | exact Hm'].
Qed.



Lemma observe_configured cs : forall self,
  0 < max_balance self -> Forall configured cs ->
  Forall (fun o => returned (fst o) = true /\ 0 < max_balance (snd o))
         (observe self cs).
Proof.
  induction cs as [|c cs IH]; intros self Hm Hc; cbn [observe].
  - constructor.
  - inversion Hc as [|? ? Hc1 Hc2]; subst.
    destruct (perform_configured self c Hm Hc1) as [Hret Hm'].
    constructor; [split; assumption|].
    apply IH; assumption.
Qed.




(** C8.  When the constructor and every [update] are given a positive rate
    and a positive maximum, then for all costs and all clock readings every
    [check_credit] and every [update] of a sequence returns without raising,
    and at every observation point, so before every [update], the maximum
    by which [update] divides is strictly positive. *)
Theorem configured_calls_never_raise (r m u t0 : Q) (cs : list call) :
  0 < r -> 0 < m -> Forall configured cs ->
  Forall (fun o => returned (fst o) = true) (observe (__init__ r m u t0) cs) /\
  Forall (fun s => 0 < max_balance s) (observations (__init__ r m u t0) cs).
Proof.
  intros Hr Hm Hc.
  pose proof (observe_configured cs (__init__ r m u t0) Hm Hc) as F.
  split.
  - eapply Forall_impl; [|exact F]. intros o [H _]. exact H.
  - unfold observations. constructor; [exact Hm|].
    apply Forall_map. eapply Forall_impl; [|exact F]. intros o [_ H]. exact H.
Qed.

Lemma configured_calls_never_raise_witness :
  Forall (fun o => returned (fst o) = true)
    (observe (__init__ 2 10 (1 # 4) 7)
       [CheckCredit (-3) 1; Update 3 20 0; CheckCredit 50 9; Update 1 1 2]) /\
  Forall (fun s => 0 < max_balance s)
    (observations (__init__ 2 10 (1 # 4) 7)
       [CheckCredit (-3) 1; Update 3 20 0; CheckCredit 50 9; Update 1 1 2]).
Proof.
  apply (configured_calls_never_raise 2 10 (1 # 4) 7
           [CheckCredit (-3) 1; Update 3 20 0; CheckCredit 50 9; Update 1 1 2]).
  - reflexivity.
  - reflexivity.
  - repeat constructor.
Defined.

(** Without the precondition the division does raise: a limiter of maximum
    0 raises in [update], after the rate has been stored. *)
Example update_zero_max_raises :
  update 5 1 0 (__init__ 1 0 (1 # 2) 0) =
  (inl ZeroDivisionError, mk 5 0 (0 * (1 # 2)) 0).
Proof. reflexivity. Qed.

End Sequences.

(** ** The batching reporter: spans that are dropped *)

Section Dropped.

Import Reporter.

Variable span : Type.

Implicit Types (self a b : t span) (x : span) (q : queue span).

Lemma try_enqueue_full x q : full q -> try_enqueue x q = (false, q).
Proof.
  unfold full, try_enqueue. intros H.
  destruct (Nat.ltb_spec (length (items q)) (capacity q)); [lia | reflexivity].
Qed.

Lemma report_span_closed x self :
  status self = Closed ->
  report_span x self = (inr tt, emit result_dropped self).
Proof.
  intros H. unfold report_span, bind, read, write. rewrite H. reflexivity.
Qed.

Lemma report_span_full x self :
  full (spans self) ->
  report_span x self = (inr tt, emit result_dropped self).
Proof.
  intros H. unfold report_span, bind, read, write.
  destruct (status self); try reflexivity.
  rewrite (try_enqueue_full x _ H). reflexivity.
Qed.

Lemma count_emit c self : count c (emit c self) = S (count c self).
Proof.
  unfold count, emit; cbn. rewrite filter_app, length_app; cbn.
  destruct c; cbn; lia.
Qed.

Lemma count_emit_other c d self :
  counter_eqb c d = false -> count c (emit d self) = count c self.
Proof.
  intros H. unfold count, emit; cbn. rewrite filter_app, length_app; cbn.
  rewrite H; cbn; lia.
Qed.

Lemma emit_same_spans c self : same_spans (emit c self) self.
Proof. unfold same_spans, emit; cbn. repeat split. Qed.

Lemma send_pending_same_spans a b :
  same_spans a b -> same_spans (send_pending a) (send_pending b).
Proof.
  intros H. pose proof H as (H1 & H2 & H3 & H4 & H5 & H6).
  unfold send_pending. rewrite H4.
  destruct (pending b) eqn:E; [exact H|].
  unfold same_spans; cbn. rewrite H1, H2, H3, H6. repeat split.
Qed.

Lemma react_same_spans e a b :
  same_spans a b -> same_spans (react e a) (react e b).
Proof.
  intros H. pose proof H as (H1 & H2 & H3 & H4 & H5 & H6).
  destruct e; unfold react.
  - rewrite H5. destruct (in_flight b) eqn:EF; [exact H|].
    rewrite H3. destruct (items (spans b)) as [|y rest] eqn:EI.
    + rewrite H1, H4. destruct (status b) eqn:ES; try exact H.
      destruct (pending b) eqn:EP.
      * unfold same_spans, set_status; cbn. intuition congruence.
      * apply send_pending_same_spans, H.
    + rewrite H2, H4. cbn [pending].
      destruct (Nat.leb _ _).
      * apply send_pending_same_spans. unfold same_spans; cbn.
        rewrite H1, H6. intuition congruence.
      * unfold same_spans; cbn. rewrite H1, H6. intuition congruence.
  - rewrite H5. destruct (in_flight b) eqn:EF; [exact H|].
    apply send_pending_same_spans, H.
  - rewrite H5. destruct (in_flight b) eqn:EF; [|exact H].
    unfold same_spans; cbn. rewrite H1, H2, H3, H4, H6. intuition congruence.
  - rewrite H1. destruct (status b) eqn:ES; try exact H.
    unfold same_spans, set_status; cbn. intuition congruence.
Qed.

Lemma run_same_spans evs : forall a b,
  same_spans a b -> same_spans (run evs a) (run evs b).
Proof.
  unfold run. induction evs as [|e evs IH]; intros a b H; cbn.
  - exact H.
  - apply IH, react_same_spans, H.
Qed.

End Dropped.

Section DroppedClaim.

Import Reporter.

(** C4.  [report_span] of the batching reporter returns at once and
    surfaces no exception.  When the reporter is closed, and when the queue
    is at capacity so that the enqueue that never waits fails, it emits
    exactly one increment of the dropped counter and nothing else; the
    queue, the pending batch, the batch in flight and the batches sent are
    as before the call, and whatever happens to the reporter afterwards,
    the spans handed to the sender are those that would have been handed
    over without the call: the span is not delivered. *)
Theorem report_span_drops {span : Type} (x : span) (self : t span) :
  status self = Closed \/ full (spans self) ->
  let after := snd (report_span x self) in
  fst (report_span x self) = inr tt /\
  emitted after = emitted self ++ [result_dropped] /\
  count result_dropped after = S (count result_dropped self) /\
  same_spans after self /\
  forall evs : list event,
    same_spans (run evs after) (run evs self) /\
    delivered (run evs after) = delivered (run evs self).
Proof.
  intros H. cbv zeta.
  assert (E : report_span x self = (inr tt, emit result_dropped self)).
  { destruct H as [H | H];
      [apply report_span_closed | apply report_span_full]; exact H. }
  rewrite E; cbn [fst snd].
  split; [reflexivity|]. split; [reflexivity|].
  split; [apply count_emit|]. split; [apply emit_same_spans|].
  intros evs.
  pose proof (run_same_spans span evs _ _ (emit_same_spans span result_dropped self))
    as S.
  split; [exact S|].
  unfold delivered. destruct S as (_ & _ & _ & _ & _ & S). rewrite S.
  reflexivity.
Qed.

Lemma report_span_drops_witness :
  let self := mk Closed 1 (mkQueue 1 [] 0) [] None [[7%nat]] [result_ok] in
  let after := snd (report_span 8%nat self) in
  fst (report_span 8%nat self) = inr tt /\
  emitted after = emitted self ++ [result_dropped] /\
  count result_dropped after = S (count result_dropped self) /\
  same_spans after self /\
  forall evs : list event,
    same_spans (run evs after) (run evs self) /\
    delivered (run evs after) = delivered (run evs self).
Proof.
  apply (report_span_drops 8%nat
           (mk Closed 1 (mkQueue 1 [] 0) [] None [[7%nat]] [result_ok])).
  left. reflexivity.
Defined.

(** The run of [test_submit_queue_full_batch_size_1]: batch size 1, queue
    capacity 1.  Span 1 is sent, span 2 waits in the queue behind the send
    in flight, span 3 is dropped and counted once; after the sender has
    answered twice, spans 1 and 2 were delivered and span 3 was not. *)
Example queue_full_batch_size_1 :
  let r0 := mk Open 1 (mkQueue 1 [] 0) [] None [] [] in
  let r1 := react Dequeue (snd (report_span 1%nat r0)) in
  let r2 := snd (report_span 2%nat r1) in
  let r3 := snd (report_span 3%nat r2) in
  let r4 := run [SendDone true; Dequeue; SendDone true] r3 in
  requests r1 = [[1%nat]] /\
  items (spans r2) = [2%nat] /\ count result_dropped r2 = 0%nat /\
  items (spans r3) = [2%nat] /\ count result_dropped r3 = 1%nat /\
  delivered r4 = [1%nat; 2%nat] /\ count result_dropped r4 = 1%nat.
Proof. cbv zeta. repeat split. Qed.

End DroppedClaim.

(** ** The composite reporter *)

Section FanOut.

Import CompositeReporter.

Context {span tags child : Type}.

Implicit Types (op : operation span tags) (log : calls span tags child).

Lemma for_each_run op (cs : list child) : forall log,
  for_each op cs log = (inr tt, log ++ map (fun c => (c, op)) cs).
Proof.
  induction cs as [|c cs IH]; intros log; cbn [for_each map].
  - unfold ret. rewrite app_nil_r. reflexivity.
  - unfold bind, invoke, write. rewrite IH, <- app_assoc. reflexivity.
Qed.

Lemma settle_nth_length i r (cs : list completion) :
  length (settle_nth i r cs) = length cs.
Proof.
  revert i. induction cs as [|c cs IH]; intros i; [reflexivity|].
  destruct i, c; cbn; try rewrite IH; reflexivity.
Qed.

(** After [settle_nth i r], child [k] is settled when it was already, or
    when it is child [i]. *)
Lemma settled_settle_nth (cs : list completion) : forall i r k,
  (k < length cs)%nat ->
  settled (nth k (settle_nth i r cs) None) =
  settled (nth k cs None) || Nat.eqb k i.
Proof.
  induction cs as [|c cs IH]; intros i r k Hk; cbn in Hk; [lia|].
  destruct i as [|i], k as [|k].
  - destruct c; reflexivity.
  - destruct c; cbn; rewrite ?orb_false_r; reflexivity.
  - destruct c; cbn; rewrite ?orb_false_r; reflexivity.
  - assert (E : settle_nth (S i) r (c :: cs) = c :: settle_nth i r cs)
      by (destruct c; reflexivity).
    rewrite E. cbn [nth]. change (Nat.eqb (S k) (S i)) with (Nat.eqb k i).
    apply IH. lia.
Qed.

Lemma settle_all_length evs : forall j,
  length (awaited (settle_all evs j)) = length (awaited j).
Proof.
  unfold settle_all. induction evs as [|ev evs IH]; intros j; cbn; [reflexivity|].
  rewrite IH. unfold settle; cbn. apply settle_nth_length.
Qed.

Lemma settled_settle_all evs : forall j k,
  (k < length (awaited j))%nat ->
  (settled (nth k (awaited (settle_all evs j)) None) = true <->
   settled (nth k (awaited j) None) = true \/ settles k evs).
Proof.
  unfold settle_all, settles.
  induction evs as [|[i r] evs IH]; intros j k Hk; cbn [fold_left].
  - split; [intros H; left; exact H|]. intros [H | [r []]]. exact H.
  - rewrite IH by (unfold settle; cbn; rewrite settle_nth_length; exact Hk).
    unfold settle; cbn [awaited fst snd].
    rewrite settled_settle_nth by exact Hk. rewrite orb_true_iff.
    split.
    + intros [[H | H] | [r' H]].
      * left; exact H.
      * apply Nat.eqb_eq in H. subst i. right. exists r. left. reflexivity.
      * right. exists r'. right. exact H.
    + intros [H | [r' [H | H]]].
      * left; left; exact H.
      * inversion H; subst. left; right. apply Nat.eqb_refl.
      * right. exists r'. exact H.
Qed.

Lemma forallb_nth (cs : list completion) :
  forallb settled cs = true <->
  forall k, (k < length cs)%nat -> settled (nth k cs None) = true.
Proof.
  rewrite forallb_forall. split.
  - intros H k Hk. apply H, nth_In, Hk.
  - intros H c Hc. destruct (In_nth cs c None Hc) as (k & Hk & E).
    rewrite <- E. apply H, Hk.
Qed.

Lemma state_settled j :
  state j <> None <->
  forall k, (k < length (awaited j))%nat ->
            settled (nth k (awaited j) None) = true.
Proof.
  rewrite <- forallb_nth. unfold state.
  destruct (forallb settled (awaited j)); split; congruence.
Qed.

Lemma nth_map_pending (cs : list child) k :
  nth k (map (fun _ : child => @None settlement) cs) None = None.
Proof.
  revert k. induction cs as [|c cs IH]; intros [|k]; cbn; auto.
Qed.

(** C5.  [set_process] and [report_span] of the composite call the same
    operation on every child, one after the other, in the order in which
    the children are held.  [close()] calls [close()] on every child and
    returns a completion that is settled exactly when the close completion
    of every child has settled: it stays pending as long as one child is
    pending, and a child whose close failed counts as settled, so the
    others are still waited for and the composite settles after the last
    of them. *)
Theorem composite_fan_out (self : t child) log :
  (forall name tg ml,
     set_process self name tg ml log =
     (inr tt, log ++ map (fun c => (c, SetProcess name tg ml)) (reporters self))) /\
  (forall x,
     report_span self x log =
     (inr tt, log ++ map (fun c => (c, ReportSpan x)) (reporters self))) /\
  (exists j,
     close self log =
     (inr j, log ++ map (fun c => (c, Close)) (reporters self)) /\
     length (awaited j) = length (reporters self) /\
     forall evs : list (nat * settlement),
       (state (settle_all evs j) <> None <->
        forall i, (i < length (reporters self))%nat -> settles i evs) /\
       (forall i, (i < length (reporters self))%nat -> ~ settles i evs ->
                  state (settle_all evs j) = None)).
Proof.
  split; [|split].
  - intros name tg ml. apply for_each_run.
  - intros x. apply for_each_run.
  - exists (mkJoin (map (fun _ => None) (reporters self))).
    assert (L : length (awaited (mkJoin (map (fun _ : child => None) (reporters self))))
                = length (reporters self)) by (cbn; apply length_map).
    split; [|split; [exact L|]].
    + unfold close, bind. rewrite for_each_run. reflexivity.
    + intros evs.
      assert (I : state (settle_all evs (mkJoin (map (fun _ : child => None) (reporters self)))) <> None <->
                  forall i, (i < length (reporters self))%nat -> settles i evs).
      { rewrite state_settled, settle_all_length, L. split.
        - intros H i Hi. specialize (H i Hi).
          apply settled_settle_all in H; [|rewrite L; exact Hi].
          destruct H as [H | H]; [|exact H].
          cbn in H. rewrite nth_map_pending in H. discriminate.
        - intros H i Hi. apply settled_settle_all; [rewrite L; exact Hi|].
          right. apply H, Hi. }
      split; [exact I|].
      intros i Hi Hn.
      destruct (state (settle_all evs _)) eqn:E; [|reflexivity].
      exfalso. apply Hn. apply I; [congruence | exact Hi].
Qed.

End FanOut.

(** The run of [test_composite_reporter]: two children; after [close()]
    the composite is pending, it is still pending when the first child has
    settled, also as failed, and it is settled when both have. *)
Example composite_of_two :
  let self := CompositeReporter.mk [1%nat; 2%nat] in
  let log : CompositeReporter.calls unit unit nat := [] in
  snd (CompositeReporter.report_span self tt log)
  = [(1%nat, CompositeReporter.ReportSpan tt);
     (2%nat, CompositeReporter.ReportSpan tt)] /\
  exists j, fst (CompositeReporter.close self log) = inr j /\
    CompositeReporter.state j = None /\
    CompositeReporter.state
      (CompositeReporter.settle_all [(0%nat, CompositeReporter.Failed)] j) = None /\
    CompositeReporter.state
      (CompositeReporter.settle_all
         [(0%nat, CompositeReporter.Failed); (1%nat, CompositeReporter.Resolved)] j)
    = Some CompositeReporter.Failed /\
    CompositeReporter.state
      (CompositeReporter.settle_all
         [(1%nat, CompositeReporter.Resolved); (0%nat, CompositeReporter.Resolved)] j)
    = Some CompositeReporter.Resolved.
Proof.
  cbv zeta. split; [reflexivity|]. eexists. split; [reflexivity|].
  repeat split.
Qed.

(** * Further properties of the rate limiter *)

Section Admission.

Import RateLimiter.


Lemma check_credit_granted self c now :
  fst (check_credit c now self) = inr true <-> c <= replenished self now.
Proof.
  rewrite check_credit_run. destruct (Qgeb _ _) eqn:G; cbn.
  - apply Qgeb_true in G. tauto.
  - apply Qgeb_false in G. split; [discriminate | lra].
Qed.


(** The replenished balance grows with the clock when the rate is not
    negative. *)
Lemma replenished_monotone self t1 t2 :
  0 <= credits_per_second self -> t1 <= t2 ->
  replenished self t1 <= replenished self t2.
Proof.
  intros Hr Ht. unfold replenished. apply Q.min_le_compat_r.
  assert (0 <= (t2 - t1) * credits_per_second self) by nra.
  lra.
Qed.

(** X1.  A cost above [max_balance] is never granted, whatever the state
    of the limiter and the clock: the call returns [False] and leaves the
    replenished balance. *)
Theorem cost_above_max_is_denied (self : t) (c now : Q) :
  max_balance self < c ->
  check_credit c now self =
  (inr false, mk (credits_per_second self) (max_balance self)
                 (replenished self now) now).
Proof.
  intros H. rewrite check_credit_run.
  assert (G : Qgeb (replenished self now) c = false).
  { apply Qgeb_false. pose proof (replenished_le_max self now). lra. }
  rewrite G. reflexivity.
Qed.

Lemma cost_above_max_is_denied_witness :
  check_credit 5 1000 (mk 1 4 4 0) =
  (inr false, mk 1 4 (replenished (mk 1 4 4 0) 1000) 1000).
Proof.
  apply (cost_above_max_is_denied (mk 1 4 4 0) 5 1000). reflexivity.
Defined.

(** X2.  Admission is monotone: with a rate that is not negative, a cost
    granted at one clock reading is granted, from the same state, at every
    later reading and for every smaller cost. *)
Theorem admission_monotone (self : t) (c c' t1 t2 : Q) :
  0 <= credits_per_second self -> t1 <= t2 -> c' <= c ->
  fst (check_credit c t1 self) = inr true ->
  fst (check_credit c' t2 self) = inr true.
Proof.
  intros Hr Ht Hc H. apply check_credit_granted in H.
  apply check_credit_granted.
  pose proof (replenished_monotone self t1 t2 Hr Ht). lra.
Qed.

Lemma admission_monotone_witness :
  fst (check_credit 1 7 (mk 1 4 0 0)) = inr true.
Proof.
  apply (admission_monotone (mk 1 4 0 0) 2 1 3 7);
    [discriminate | discriminate | discriminate | reflexivity].
Defined.






End Admission.

Section Throughput.

Import RateLimiter Usage.





(** The run of the witness: of five unit costs, the two the full bucket
    holds are granted at time 0, the third is denied, and one more is
    granted after one second at rate 1. *)
Example granted_total_run :
  map fst (observe (mk 1 2 2 0)
             [CheckCredit 1 0; CheckCredit 1 0; CheckCredit 1 0;
              CheckCredit 1 1; CheckCredit 1 1])
  = [inr (VBool true); inr (VBool true); inr (VBool false);
     inr (VBool true); inr (VBool false)] /\
  granted_total (mk 1 2 2 0)
    [CheckCredit 1 0; CheckCredit 1 0; CheckCredit 1 0;
     CheckCredit 1 1; CheckCredit 1 1] == 3.
Proof. split; reflexivity. Qed.

End Throughput.

Section ZeroMaximum.

Import RateLimiter Usage.

Lemma perform_update_zero self r m now :
  max_balance self == 0 ->
  perform (Update r m now) self =
  (inl ZeroDivisionError,
   mk r (max_balance self) (replenished self now) now).
Proof.
  intros Hm. unfold perform, bind.
  rewrite update_run, (pydiv_zero _ _ Hm). reflexivity.
Qed.

Lemma observe_zero_max cs : forall self,
  max_balance self == 0 ->
  Forall2 stuck_outcome cs (observe self cs) /\
  Forall (fun o => max_balance (snd o) == 0) (observe self cs).
Proof.
  induction cs as [|c cs IH]; intros self Hm; cbn [observe].
  - split; constructor.
  - assert (H1 : stuck_outcome c (perform c self) /\
                 max_balance (snd (perform c self)) == 0).
    { destruct c as [cost now | r m now]; unfold stuck_outcome.
      - rewrite perform_check_credit. split; [reflexivity | exact Hm].
      - rewrite perform_update_zero by exact Hm. split; [reflexivity | exact Hm]. }
    destruct H1 as [Ho Hm'].
    destruct (IH (snd (perform c self)) Hm') as [F2 F].
    split; constructor; assumption.
Qed.

(** X6.  A limiter whose maximum is 0 cannot be reconfigured: every
    [update], whatever its arguments, raises [ZeroDivisionError] after
    having stored the new rate, and leaves the maximum at 0, so that the
    next [update] raises again; [check_credit] keeps returning. *)
Theorem zero_max_is_stuck (self : t) (cs : list call) :
  max_balance self == 0 ->
  Forall2 stuck_outcome cs (observe self cs) /\
  Forall (fun s => max_balance s == 0) (observations self cs) /\
  forall r m now,
    update r m now self =
    (inl ZeroDivisionError, mk r (max_balance self) (replenished self now) now).
Proof.
  intros Hm. destruct (observe_zero_max cs self Hm) as [F2 F].
  split; [exact F2|]. split.
  - unfold observations. constructor; [exact Hm|].
    apply Forall_map. exact F.
  - intros r m now. rewrite update_run, (pydiv_zero _ _ Hm). reflexivity.
Qed.

Lemma zero_max_is_stuck_witness :
  let self := __init__ 1 0 (1 # 2) 0 in
  let cs := [Update 5 10 1; CheckCredit 0 2; Update 7 3 4] in
  Forall2 stuck_outcome cs (observe self cs) /\
  Forall (fun s => max_balance s == 0) (observations self cs) /\
  forall r m now,
    update r m now self =
    (inl ZeroDivisionError, mk r (max_balance self) (replenished self now) now).
Proof.
  apply (zero_max_is_stuck (__init__ 1 0 (1 # 2) 0)
           [Update 5 10 1; CheckCredit 0 2; Update 7 3 4]).
  reflexivity.
Defined.

(** X7.  [update] with the maximum the limiter already has changes the
    rate and nothing else: the balance is the replenished balance, not
    rescaled. *)
Theorem update_same_max_keeps_balance (self : t) (r now : Q) :
  ~ max_balance self == 0 ->
  fst (update r (max_balance self) now self) = inr tt /\
  credits_per_second (snd (update r (max_balance self) now self)) = r /\
  max_balance (snd (update r (max_balance self) now self)) = max_balance self /\
  last_tick (snd (update r (max_balance self) now self)) = now /\
  balance (snd (update r (max_balance self) now self)) == replenished self now /\
  balance (snd (update r (max_balance self) now self))
  == balance (snd (_update_balance now self)).
Proof.
  intros Hm. rewrite update_returns by exact Hm.
  rewrite _update_balance_run. cbn.
  repeat (split; [reflexivity|]). split; field; exact Hm.
Qed.

Lemma update_same_max_keeps_balance_witness :
  let self := mk 1 4 1 0 in
  fst (update 9 (max_balance self) 2 self) = inr tt /\
  credits_per_second (snd (update 9 (max_balance self) 2 self)) = 9 /\
  max_balance (snd (update 9 (max_balance self) 2 self)) = max_balance self /\
  last_tick (snd (update 9 (max_balance self) 2 self)) = 2 /\
  balance (snd (update 9 (max_balance self) 2 self)) == replenished self 2 /\
  balance (snd (update 9 (max_balance self) 2 self))
  == balance (snd (_update_balance 2 self)).
Proof.
  apply (update_same_max_keeps_balance (mk 1 4 1 0) 9 2). discriminate.
Defined.

End ZeroMaximum.

(** * The helpers of the reporter tests *)

Section Counters.

Import TestReporter.

Implicit Types (d : counters) (key k : String.string) (v : Z).

Lemma get_setitem_same d key v default :
  get (setitem d key v) key default = v.
Proof.
  induction d as [|[k0 v0] d IH]; cbn.
  - rewrite String.eqb_refl. reflexivity.
  - destruct (String.eqb k0 key) eqn:E; cbn; rewrite E; [reflexivity | exact IH].
Qed.

Lemma get_setitem_other d key k v default :
  key <> k -> get (setitem d key v) k default = get d k default.
Proof.
  intros Hne. induction d as [|[k0 v0] d IH]; cbn.
  - apply String.eqb_neq in Hne. rewrite Hne. reflexivity.
  - destruct (String.eqb k0 key) eqn:E; cbn.
    + apply String.eqb_eq in E. subst k0.
      apply String.eqb_neq in Hne. rewrite Hne. reflexivity.
    + destruct (String.eqb k0 k); [reflexivity | exact IH].
Qed.

Lemma contains_setitem d key k v :
  contains (setitem d key v) k = String.eqb key k || contains d k.
Proof.
  induction d as [|[k0 v0] d IH]; cbn.
  - reflexivity.
  - destruct (String.eqb k0 key) eqn:E; cbn.
    + apply String.eqb_eq in E. subst k0.
      destruct (String.eqb key k); reflexivity.
    + rewrite IH. destruct (String.eqb k0 k), (String.eqb key k); reflexivity.
Qed.

(** The keys of a dict are distinct, and [setitem] keeps them so. *)
Lemma setitem_keys d key v :
  NoDup (map fst d) -> NoDup (map fst (setitem d key v)).
Proof.
  assert (K : forall d k, In k (map fst (setitem d key v)) ->
                          k = key \/ In k (map fst d)).
  { clear d. intros d k. induction d as [|[k0 v0] d IH]; cbn.
    - intros [H | []]. left. symmetry. exact H.
    - destruct (String.eqb k0 key) eqn:E; cbn.
      + tauto.
      + intros [H | H]; [tauto|]. destruct (IH H); tauto. }
  induction d as [|[k0 v0] d IH]; cbn; intros Hnd.
  - constructor; [intros [] | constructor].
  - inversion Hnd as [|? ? Hn Hd]; subst.
    destruct (String.eqb k0 key) eqn:E; cbn.
    + constructor; assumption.
    + constructor; [|apply IH, Hd].
      intros Hin. destruct (K d k0 Hin) as [H | H]; [|contradiction].
      subst k0. rewrite String.eqb_refl in E. discriminate.
Qed.

(** X8.  [_incr_count] accumulates: after any sequence of calls, the
    counter of a key holds what it held before (0 for a key that was
    missing) plus the sum of the values counted under that key; calls with
    other keys do not touch it.  A key is in the dict exactly when it was
    there before or was counted at least once, and the keys stay
    distinct. *)
Theorem incr_count_accumulates (calls : list (String.string * Z)) :
  forall d key,
    get (incr_all calls d) key 0 = (get d key 0 + counted calls key)%Z /\
    (contains (incr_all calls d) key = true <->
     contains d key = true \/ exists v, In (key, v) calls) /\
    (NoDup (map fst d) -> NoDup (map fst (incr_all calls d))).
Proof.
  induction calls as [|[k v] calls IH]; intros d key; cbn [incr_all counted].
  - split; [lia|]. split; [|tauto].
    split; [tauto|]. intros [H | [v []]]. exact H.
  - unfold _incr_count; cbn [snd].
    destruct (IH (setitem d k (v + get d k 0)%Z) key) as (Hg & Hc & Hn).
    split; [|split].
    + rewrite Hg. destruct (String.eqb k key) eqn:E.
      * apply String.eqb_eq in E. subst k. rewrite get_setitem_same. lia.
      * apply String.eqb_neq in E. rewrite get_setitem_other by exact E. lia.
    + rewrite Hc, contains_setitem, orb_true_iff. split.
      * intros [[H | H] | [v' H]].
        -- apply String.eqb_eq in H. subst k. right. exists v. left. reflexivity.
        -- left. exact H.
        -- right. exists v'. right. exact H.
      * intros [H | [v' [H | H]]].
        -- left. right. exact H.
        -- inversion H; subst. left. left. apply String.eqb_refl.
        -- right. exists v'. exact H.
    + intros Hd. apply Hn, setitem_keys, Hd.
Qed.

End Counters.

Section Waiting.

Import TestReporter.

Lemma wait_loop_sleeps fn n : forall i, (snd (wait_loop fn i n) <= n)%nat.
Proof.
  induction n as [|n IH]; intros i; cbn; [lia|].
  destruct (fn i); cbn; [lia|].
  specialize (IH (S i)). destruct (wait_loop fn (S i) n); cbn in *. lia.
Qed.

Lemma wait_loop_met fn n : forall i k,
  (k < n)%nat -> fn (i + k)%nat = true ->
  (forall j, (j < k)%nat -> fn (i + j)%nat = false) ->
  wait_loop fn i n = (Met, k).
Proof.
  induction n as [|n IH]; intros i k Hk Ht Hf; [lia|]. cbn.
  destruct k as [|k].
  - rewrite Nat.add_0_r in Ht. rewrite Ht. reflexivity.
  - assert (E : fn i = false).
    { specialize (Hf 0%nat). rewrite Nat.add_0_r in Hf. apply Hf. lia. }
    rewrite E. rewrite (IH (S i) k); [reflexivity | lia | |].
    + replace (S i + k)%nat with (i + S k)%nat by lia. exact Ht.
    + intros j Hj. replace (S i + j)%nat with (i + S j)%nat by lia.
      apply Hf. lia.
Qed.

Lemma wait_loop_gave_up fn n : forall i,
  (forall j, (j < n)%nat -> fn (i + j)%nat = false) ->
  wait_loop fn i n = (GaveUp, n).
Proof.
  induction n as [|n IH]; intros i Hf; [reflexivity|]. cbn.
  assert (E : fn i = false).
  { specialize (Hf 0%nat). rewrite Nat.add_0_r in Hf. apply Hf. lia. }
  rewrite E, (IH (S i)); [reflexivity|].
  intros j Hj. replace (S i + j)%nat with (i + S j)%nat by lia. apply Hf. lia.
Qed.

Lemma wait_loop_met_inv fn n : forall i s,
  wait_loop fn i n = (Met, s) ->
  (s < n)%nat /\ fn (i + s)%nat = true /\
  forall j, (j < s)%nat -> fn (i + j)%nat = false.
Proof.
  induction n as [|n IH]; intros i s H; cbn in H; [discriminate|].
  destruct (fn i) eqn:E.
  - inversion H; subst. rewrite Nat.add_0_r. repeat split; [lia | exact E | lia].
  - destruct (wait_loop fn (S i) n) as [w s'] eqn:W.
    inversion H; subst. destruct (IH (S i) s' W) as (Hs & Ht & Hf).
    split; [lia|]. split.
    + replace (i + S s')%nat with (S i + s')%nat by lia. exact Ht.
    + intros [|j] Hj; [rewrite Nat.add_0_r; exact E|].
      replace (i + S j)%nat with (S i + j)%nat by lia. apply Hf. lia.
Qed.

(** X9.  [_wait_for] polls at most 1000 times and sleeps once after each
    poll that answered false.  It returns at the first poll [k] that
    answers true, after exactly [k] sleeps; when the first 1000 polls all
    answer false it gives up after 1000 sleeps, printing the message, and
    returns all the same without raising. *)
Theorem wait_for_spec (fn : nat -> bool) :
  (snd (_wait_for fn) <= 1000)%nat /\
  (forall k, (k < 1000)%nat -> fn k = true ->
             (forall j, (j < k)%nat -> fn j = false) ->
             _wait_for fn = (Met, k)) /\
  ((forall j, (j < 1000)%nat -> fn j = false) ->
   _wait_for fn = (GaveUp, 1000%nat)) /\
  (forall s, _wait_for fn = (Met, s) ->
             (s < 1000)%nat /\ fn s = true /\
             forall j, (j < s)%nat -> fn j = false).
Proof.
  unfold _wait_for. split; [apply wait_loop_sleeps|]. split; [|split].
  - intros k Hk Ht Hf. apply wait_loop_met; assumption.
  - intros Hf. apply wait_loop_gave_up. exact Hf.
  - intros s H. apply (wait_loop_met_inv fn 1000 0 s H).
Qed.

End Waiting.

Section Senders.

Import TestReporter.

Context {span : Type}.

Lemma send_all_run (batches : list (list span)) : forall self : sender span,
  send_all batches self =
  (seq (length (store self)) (length batches),
   mkSender (requests self ++ batches)
            (futures self ++ seq (length (store self)) (length batches))
            (store self ++ repeat None (length batches))).
Proof.
  induction batches as [|b batches IH]; intros self; cbn [send_all].
  - cbn. rewrite !app_nil_r. destruct self; reflexivity.
  - rewrite IH. unfold __call__; cbn [fst snd requests futures store length].
    rewrite length_app; cbn [length]. rewrite Nat.add_1_r.
    rewrite <- !app_assoc. cbn [seq repeat app]. reflexivity.
Qed.

(** X10.  [FakeSender] keeps its two lists aligned: after any sequence
    of calls on a new sender, [requests] holds the batches in call order,
    [futures] holds the futures returned, in the same order, one per
    request; every one of them is a future that did not exist before, is
    pending, and differs from the others. *)
Theorem fake_sender_aligned (batches : list (list span)) (h : heap) :
  let refs := fst (send_all batches (new_sender h)) in
  let self := snd (send_all batches (new_sender h)) in
  requests self = batches /\
  futures self = refs /\
  length (futures self) = length (requests self) /\
  NoDup refs /\
  (forall ref, In ref refs ->
     (length h <= ref)%nat /\ nth_error (store self) ref = Some None) /\
  (forall ref, (ref < length h)%nat ->
     nth_error (store self) ref = nth_error h ref).
Proof.
  cbv zeta. rewrite send_all_run. cbn [fst snd new_sender requests futures store app].
  split; [reflexivity|]. split; [reflexivity|].
  split; [apply length_seq|]. split; [apply seq_NoDup|]. split.
  - intros ref Hin. apply in_seq in Hin. split; [lia|].
    rewrite nth_error_app2 by lia.
    apply nth_error_repeat. lia.
  - intros ref Hlt. apply nth_error_app1. exact Hlt.
Qed.

End Senders.
